(** * Name Styler Bot: the style engine and the conversation controller

    A shallow embedding of [app.py].  Python strings are sequences of Unicode
    code points; the built-in [str] methods the program calls are modelled
    after CPython's [unicodeobject.c], over case tables that are a parameter
    of the development (the Unicode character database is not part of the
    program).  The handlers are written in a small monad that records the
    messages they send; the dispatch of python-telegram-bot's
    [ConversationHandler] and [Application] follows that library's
    [check_update] / [handle_update]. *)

From Stdlib Require Import Ascii String.
From Stdlib Require Import List Bool Arith NArith ZArith Lia.
Import ListNotations.

(** ** Python strings *)

Definition codepoint := N.

Definition str := list codepoint.

(** A literal made of ASCII characters only. *)
Definition lit (s : string) : str := map N_of_ascii (list_ascii_of_string s).

Definition LF : codepoint := 0x0A%N.

Definition SP : codepoint := 0x20%N.

Fixpoint str_eqb (a b : str) : bool :=
  match a, b with
  | [], [] => true
  | x :: a', y :: b' => N.eqb x y && str_eqb a' b'
  | _, _ => false
  end.

(** [not s] for a string: true exactly on the empty string. *)
Definition py_not (s : str) : bool :=
  match s with [] => true | _ :: _ => false end.

(** [sep.join(xs)] *)
Fixpoint str_join (sep : str) (xs : list str) : str :=
  match xs with
  | [] => []
  | x :: rest =>
      match rest with
      | [] => x
      | _ :: _ => x ++ sep ++ str_join sep rest
      end
  end.

(** Iterating over a string yields its one-character strings. *)
Definition chars (s : str) : list str := map (fun c => [c]) s.

(** [enumerate(s)] *)
Fixpoint enumerate_from (i : nat) (s : str) : list (nat * codepoint) :=
  match s with
  | [] => []
  | c :: rest => (i, c) :: enumerate_from (S i) rest
  end.

Definition enumerate (s : str) : list (nat * codepoint) := enumerate_from 0 s.

(** [s.split('\n')] *)
Fixpoint str_split_lf (s : str) : list str :=
  match s with
  | [] => [[]]
  | c :: rest =>
      if N.eqb c LF then [] :: str_split_lf rest
      else match str_split_lf rest with
           | l :: ls => (c :: l) :: ls
           | [] => [[c]]
           end
  end.

(** [s.replace(' ', '')] *)
Definition remove_spaces (s : str) : str :=
  filter (fun c => negb (N.eqb c SP)) s.

(** [s.startswith(p)] *)
Fixpoint startswith (p s : str) : bool :=
  match p, s with
  | [], _ => true
  | x :: p', y :: s' => N.eqb x y && startswith p' s'
  | _ :: _, [] => false
  end.

(** [Py_UNICODE_ISSPACE]: the code points [str.strip()] removes. *)
Definition is_space (c : codepoint) : bool :=
  ((0x09 <=? c) && (c <=? 0x0D) || (0x1C <=? c) && (c <=? 0x20)
   || (c =? 0x85) || (c =? 0xA0) || (c =? 0x1680)
   || (0x2000 <=? c) && (c <=? 0x200A)
   || (c =? 0x2028) || (c =? 0x2029) || (c =? 0x202F)
   || (c =? 0x205F) || (c =? 0x3000))%N.

Fixpoint lstrip (s : str) : str :=
  match s with
  | [] => []
  | c :: rest => if is_space c then lstrip rest else s
  end.

Definition rstrip (s : str) : str := rev (lstrip (rev s)).

(** [s.strip()]: the left index advances over whitespace, then the right one
    retreats over whitespace. *)
Definition str_strip (s : str) : str := rstrip (lstrip s).

(** ** Case conversion

    The five functions of CPython's [unicodectype.c] that [str.upper],
    [str.lower] and [str.title] consult. *)

Record CaseTables := {
  to_upper_full : codepoint -> str;
  to_lower_full : codepoint -> str;
  to_title_full : codepoint -> str;
  is_cased : codepoint -> bool;
  is_case_ignorable : codepoint -> bool
}.

Section Case.
Variable U : CaseTables.

(** The first character of [s] that is not case-ignorable, if any. *)
Definition skip_ignorable (s : str) : option codepoint :=
  find (fun c => negb (is_case_ignorable U c)) s.

(** [handle_capital_sigma]: [before_rev] holds the characters to the left of
    the sigma, nearest first, and [after] those to its right. *)
Definition handle_capital_sigma (before_rev after : str) : codepoint :=
  let final_sigma :=
    match skip_ignorable before_rev with
    | Some c => is_cased U c
    | None => false
    end in
  let final_sigma :=
    if final_sigma then
      match skip_ignorable after with
      | Some c => negb (is_cased U c)
      | None => true
      end
    else false in
  if final_sigma then 0x3C2%N else 0x3C3%N.

Definition lower_ucs4 (before_rev : str) (c : codepoint) (after : str) : str :=
  if N.eqb c 0x3A3 then [handle_capital_sigma before_rev after]
  else to_lower_full U c.

Fixpoint do_lower (before_rev rest : str) : str :=
  match rest with
  | [] => []
  | c :: after => lower_ucs4 before_rev c after ++ do_lower (c :: before_rev) after
  end.

Fixpoint do_title (previous_is_cased : bool) (before_rev rest : str) : str :=
  match rest with
  | [] => []
  | c :: after =>
      (if previous_is_cased then lower_ucs4 before_rev c after
       else to_title_full U c)
      ++ do_title (is_cased U c) (c :: before_rev) after
  end.

(** [s.upper()], [s.lower()], [s.title()] *)
Definition str_upper (s : str) : str := flat_map (to_upper_full U) s.

Definition str_lower (s : str) : str := do_lower [] s.

Definition str_title (s : str) : str := do_title false [] s.
End Case.

(** The entries of the Unicode character database for U+0000..U+00FF.  Code
    points above U+00FF are outside this table and treated as caseless; the
    table serves to evaluate the program on Latin-1 input. *)
Module Latin1.
Local Open Scope N_scope.

Definition in_range (lo hi c : N) : bool := (lo <=? c) && (c <=? hi).

Definition upper (c : codepoint) : str :=
  if in_range 0x61 0x7A c then [c - 32]
  else if c =? 0xB5 then [0x39C]
  else if c =? 0xDF then [0x53; 0x53]
  else if in_range 0xE0 0xFE c && negb (c =? 0xF7) then [c - 32]
  else if c =? 0xFF then [0x178]
  else [c].

Definition lower (c : codepoint) : str :=
  if in_range 0x41 0x5A c then [c + 32]
  else if in_range 0xC0 0xDE c && negb (c =? 0xD7) then [c + 32]
  else [c].

Definition title (c : codepoint) : str :=
  if c =? 0xDF then [0x53; 0x73] else upper c.

Definition cased (c : codepoint) : bool :=
  in_range 0x41 0x5A c || in_range 0x61 0x7A c
  || (c =? 0xAA) || (c =? 0xB5) || (c =? 0xBA)
  || in_range 0xC0 0xD6 c || in_range 0xD8 0xF6 c || in_range 0xF8 0xFF c.

Definition case_ignorable (c : codepoint) : bool :=
  (c =? 0x27) || (c =? 0x2E) || (c =? 0x3A) || (c =? 0x5E) || (c =? 0x60)
  || (c =? 0xA8) || (c =? 0xAD) || (c =? 0xAF) || (c =? 0xB4)
  || (c =? 0xB7) || (c =? 0xB8).

Definition tables : CaseTables :=
  {| to_upper_full := upper;
     to_lower_full := lower;
     to_title_full := title;
     is_cased := cased;
     is_case_ignorable := case_ignorable |}.
End Latin1.

(** ** The style engine *)

Definition BLUE : codepoint := 0x1F539%N.     (* small blue diamond *)
Definition ORANGE : codepoint := 0x1F538%N.   (* small orange diamond *)
Definition SPARKLES : codepoint := 0x2728%N.

Definition lbl_normal : str := BLUE :: lit " Normal: ".

Definition lbl_upper : str := ORANGE :: lit " UPPERCASE: ".

Definition lbl_lower : str := BLUE :: lit " lowercase: ".

Definition lbl_title : str := ORANGE :: lit " Title Case: ".

Definition lbl_alternating : str := BLUE :: lit " AlTeRnAtInG: ".

Definition lbl_reverse : str := ORANGE :: lit " Reverse: ".

Definition lbl_emojis : str := BLUE :: lit " With Emojis: ".

Definition lbl_spaced : str := ORANGE :: lit " Spaced Out: ".

Definition labels : list str :=
  [lbl_normal; lbl_upper; lbl_lower; lbl_title;
   lbl_alternating; lbl_reverse; lbl_emojis; lbl_spaced].

(** [styles.append(x)] *)
Definition append (styles : list str) (x : str) : list str := styles ++ [x].

Section Engine.
Variable U : CaseTables.

Definition alternating (name : str) : str :=
  str_join []
    (map (fun '(i, char) =>
            if Nat.eqb (i mod 2) 0 then str_upper U [char]
            else str_lower U [char])
         (enumerate name)).

Definition emoji_name (name : str) : str :=
  str_join [SP] (map (fun char => char ++ [SPARKLES]) (chars name)).

Definition spaced (name : str) : str := str_join [SP] (chars name).

(** The list [styles] as it stands at the [return] of
    [create_name_styles]. *)
Definition styles_of (name : str) : list str :=
  let styles := [] in
  let styles := append styles (lbl_normal ++ name) in
  let styles := append styles (lbl_upper ++ str_upper U name) in
  let styles := append styles (lbl_lower ++ str_lower U name) in
  let styles := append styles (lbl_title ++ str_title U name) in
  let styles := append styles (lbl_alternating ++ alternating name) in
  let styles := append styles (lbl_reverse ++ rev name) in
  let styles := append styles (lbl_emojis ++ emoji_name name) in
  let styles := append styles (lbl_spaced ++ spaced name) in
  styles.

Definition create_name_styles (name : str) : str :=
  str_join [LF] (styles_of name).
End Engine.

(** ** Handlers

    A handler runs against the outbox of the chat: every awaited
    [update.message.reply_text(...)] appends one message to it. *)

Record ReplyKeyboardMarkup := {
  keyboard : list (list str);
  resize_keyboard : bool
}.

Record sent := {
  sent_text : str;
  sent_markup : option ReplyKeyboardMarkup
}.

Definition Handler (A : Type) : Type := list sent -> A * list sent.

Definition ret {A : Type} (a : A) : Handler A := fun out => (a, out).

Definition bind {A B : Type} (m : Handler A) (k : A -> Handler B) : Handler B :=
  fun out => let (a, out') := m out in k a out'.

Declare Scope handler_scope.
Notation "x <- m ;; k" := (bind m (fun x => k))
  (at level 61, m at next level, right associativity) : handler_scope.
Notation "m ;; k" := (bind m (fun _ => k))
  (at level 61, right associativity) : handler_scope.

Definition reply_text (text : str) (reply_markup : option ReplyKeyboardMarkup)
  : Handler unit :=
  fun out => (tt, out ++ [{| sent_text := text; sent_markup := reply_markup |}]).

(** The messages a handler sends when it starts from an empty outbox, and the
    value it returns. *)
Definition run {A : Type} (m : Handler A) : A * list sent := m [].

(** An update that carries text: a message that opens with a bot command
    ([name] is the command, lower-cased and without the slash), or any other
    text message.  Telegram delivers no text message with an empty text;
    [filters.TEXT] tests for it all the same.  Updates without text match
    none of the handlers this program registers and are left out. *)
Inductive update :=
| Command (name : str)
| Text (text : str).

(** [update.message.text] *)
Definition message_text (u : update) : str :=
  match u with
  | Command name => lit "/" ++ name
  | Text text => text
  end.

(** Conversation states.  [END] is [ConversationHandler.END]. *)
Definition GET_NAME : Z := 1.

Definition END : Z := (-1)%Z.

Definition WAVE : codepoint := 0x1F44B%N.

Definition ROBOT : codepoint := 0x1F916%N.

Definition BULLET : codepoint := 0x2022%N.

Definition welcome_message : str :=
  WAVE :: lit " Welcome to the Name Styler Bot!" ++ [LF; LF]
  ++ lit "I can display your name in different cool styles. "
  ++ lit "Please send me your name:".

Definition invalid_name_message : str := lit "Please send me a valid name!".

Definition try_again_message : str :=
  lit "Want to try another name? Use /start to begin again!".

Definition cancelled_message : str :=
  lit "Operation cancelled. Use /start to begin again!".

Definition help_text : str :=
  ROBOT :: lit " Name Styler Bot Help" ++ [LF; LF]
  ++ BULLET :: lit " Use /start to begin and enter your name" ++ [LF]
  ++ BULLET :: lit " I'll show your name in different cool styles" ++ [LF]
  ++ BULLET :: lit " You can try as many names as you want!" ++ [LF; LF]
  ++ lit "Just type /start to begin the fun!".

Section Controller.
Variable U : CaseTables.
Local Open Scope handler_scope.

Definition start (_ : update) : Handler (option Z) :=
  reply_text welcome_message None ;;
  ret (Some GET_NAME).

Definition response_header (user_name : str) : str :=
  SPARKLES :: lit " Here's your name in different styles, "
  ++ user_name ++ lit "!" ++ [LF; LF].

Definition get_name (update : update) : Handler (option Z) :=
  let user_name := str_strip (message_text update) in
  if py_not user_name then
    reply_text invalid_name_message None ;;
    ret (Some GET_NAME)
  else
    let styles := create_name_styles U user_name in
    let response := response_header user_name in
    let response := response ++ styles in
    reply_text response None ;;
    let keyboard := [[lit "/start"; lit "/help"]] in
    let reply_markup :=
      {| keyboard := keyboard; resize_keyboard := true |} in
    reply_text try_again_message (Some reply_markup) ;;
    ret (Some END).

Definition help_command (_ : update) : Handler (option Z) :=
  reply_text help_text None ;;
  ret None.

Definition cancel (_ : update) : Handler (option Z) :=
  reply_text cancelled_message
    (Some {| keyboard := [[lit "/start"]]; resize_keyboard := true |}) ;;
  ret (Some END).

(** *** Dispatch (python-telegram-bot) *)

Record handler := {
  check_update : update -> bool;
  callback : update -> Handler (option Z)
}.

(** [filters.TEXT]: the message has a non-empty text;
    [filters.COMMAND]: it opens with a bot command. *)
Definition filters_TEXT (u : update) : bool := negb (py_not (message_text u)).

Definition filters_COMMAND (u : update) : bool :=
  match u with Command _ => true | Text _ => false end.

Definition CommandHandler (command : string)
  (cb : update -> Handler (option Z)) : handler :=
  {| check_update := fun u =>
       match u with
       | Command name => str_eqb name (lit command)
       | Text _ => false
       end;
     callback := cb |}.

Definition MessageHandler (filters : update -> bool)
  (cb : update -> Handler (option Z)) : handler :=
  {| check_update := filters; callback := cb |}.

Record ConversationHandler := {
  entry_points : list handler;
  states : list (Z * list handler);
  fallbacks : list handler;
  allow_reentry : bool
}.

(** The first handler of the list whose [check_update] accepts. *)
Definition first_match (hs : list handler) (u : update) : option handler :=
  find (fun h => check_update h u) hs.

(** [states.get(state, [])] *)
Definition states_get (d : list (Z * list handler)) (state : Z)
  : list handler :=
  match find (fun kv => Z.eqb (fst kv) state) d with
  | Some kv => snd kv
  | None => []
  end.

(** [ConversationHandler.check_update]: [state] is the entry of the
    conversation in [_conversations] ([None] when it has none).  Entry
    points are searched when there is no conversation or re-entry is
    allowed; otherwise the handlers of the current state, then the
    fallbacks. *)
Definition conv_check_update (ch : ConversationHandler) (state : option Z)
  (u : update) : option handler :=
  let handler :=
    match state with
    | None => first_match (entry_points ch) u
    | Some _ =>
        if allow_reentry ch then first_match (entry_points ch) u else None
    end in
  match handler, state with
  | Some h, _ => Some h
  | None, None => None
  | None, Some s =>
      match first_match (states_get (states ch) s) u with
      | Some h => Some h
      | None => first_match (fallbacks ch) u
      end
  end.

(** [_update_state]: [END] removes the conversation, [None] keeps it. *)
Definition update_state (new_state state : option Z) : option Z :=
  match new_state with
  | Some n => if Z.eqb n END then None else Some n
  | None => state
  end.

Inductive app_handler :=
| Conversation (ch : ConversationHandler)
| Plain (h : handler).

(** [Application.process_update] over the handlers of one group: the first
    handler that accepts the update handles it, the others are skipped. *)
Fixpoint dispatch (hs : list app_handler) (state : option Z) (u : update)
  : Handler (option Z) :=
  match hs with
  | [] => ret state
  | Conversation ch :: rest =>
      match conv_check_update ch state u with
      | Some h =>
          new_state <- callback h u ;;
          ret (update_state new_state state)
      | None => dispatch rest state u
      end
  | Plain h :: rest =>
      if check_update h u then callback h u ;; ret state
      else dispatch rest state u
  end.

(** The handlers [run_bot] registers. *)
Definition conv_handler : ConversationHandler :=
  {| entry_points := [CommandHandler "start" start];
     states :=
       [(GET_NAME,
         [MessageHandler
            (fun u => filters_TEXT u && negb (filters_COMMAND u))
            get_name])];
     fallbacks := [CommandHandler "cancel" cancel];
     allow_reentry := false |}.

Definition handlers : list app_handler :=
  [Conversation conv_handler; Plain (CommandHandler "help" help_command)].

(** One update processed in a conversation whose state is [state]: the new
    state and the messages sent. *)
Definition process_update (state : option Z) (u : update)
  : option Z * list sent :=
  run (dispatch handlers state u).
End Controller.

(** The two states of a session: no entry in the conversation table, or the
    entry [GET_NAME]. *)
Definition Idle : option Z := None.

Definition AwaitingName : option Z := Some GET_NAME.

(** ** Start-up

    The module body runs top to bottom.  It is written in a monad that logs
    the effects performed and stops at the first exception raised. *)
Module Startup.

Inductive event :=
| LoggingConfigured                 (* logging.basicConfig(...) *)
| FlaskCreated                      (* app = Flask(__name__) *)
| ThreadStarted                     (* bot_thread.start() *)
| ApplicationBuilt (token : str)    (* Application.builder().token(TOKEN).build() *)
| HandlersAdded                     (* add_handler, add_error_handler *)
| PollingStarted                    (* application.run_polling(...) *)
| HttpStarted.                      (* app.run(host='0.0.0.0', port=5000) *)

Inductive exn :=
| ValueError (msg : str)
| RuntimeError.

Definition Script (A : Type) : Type := list event -> (exn + A) * list event.

Definition ret {A : Type} (a : A) : Script A := fun log => (inr a, log).

Definition bind {A B : Type} (m : Script A) (k : A -> Script B) : Script B :=
  fun log =>
    match m log with
    | (inl e, log') => (inl e, log')
    | (inr a, log') => k a log'
    end.

Definition raise {A : Type} (e : exn) : Script A := fun log => (inl e, log).

Definition emit (ev : event) : Script unit := fun log => (inr tt, log ++ [ev]).

Declare Scope script_scope.
Notation "x <- m ;; k" := (bind m (fun x => k))
  (at level 61, m at next level, right associativity) : script_scope.
Notation "m ;; k" := (bind m (fun _ => k))
  (at level 61, right associativity) : script_scope.
Local Open Scope script_scope.

Definition TOKEN_VAR : str := lit "TELEGRAM_BOT_TOKEN".

Definition missing_token_message : str :=
  lit "No TELEGRAM_BOT_TOKEN found in environment variables".

(** [not TOKEN]: the variable is unset, or set to the empty string. *)
Definition not_token (TOKEN : option str) : bool :=
  match TOKEN with
  | None => true
  | Some s => py_not s
  end.

(** [application.run_polling(...)] runs the event loop of the thread that
    calls it.  The main thread has one; in any other thread there is none
    and the call raises [RuntimeError] before it polls. *)
Definition run_polling (main_thread : bool) : Script unit :=
  if main_thread then emit PollingStarted else raise RuntimeError.

Definition run_bot (main_thread : bool) (TOKEN : str) : Script unit :=
  emit (ApplicationBuilt TOKEN) ;;
  emit HandlersAdded ;;
  run_polling main_thread.

(** The main thread.  [getenv] is [os.getenv] over the environment of the
    process and [is_main] tells whether the file runs as the main program.
    [bot_thread.start()] returns at once: what the bot thread does is logged
    apart, see [bot_thread]. *)
Definition module_body (getenv : str -> option str) (is_main : bool)
  : Script unit :=
  emit LoggingConfigured ;;
  let TOKEN := getenv TOKEN_VAR in
  TOKEN <- (if not_token TOKEN then raise (ValueError missing_token_message)
            else ret (match TOKEN with Some s => s | None => [] end)) ;;
  emit FlaskCreated ;;
  if is_main then
    emit ThreadStarted ;;
    emit HttpStarted
  else ret tt.

(** The bot thread, once started: [run_bot] off the main thread, with the
    [TOKEN] of the module, on a log of its own.  An exception raised there
    ends this thread and no other. *)
Definition bot_thread (TOKEN : str) : Script unit := run_bot false TOKEN.

Definition run {A : Type} (m : Script A) : (exn + A) * list event := m [].

(** A listener: the polling loop or the HTTP loop. *)
Definition is_listener (ev : event) : bool :=
  match ev with
  | PollingStarted | HttpStarted => true
  | _ => false
  end.

(** What start-up builds before the listeners: the Flask application, the
    bot thread, the bot application and its handlers. *)
Definition is_startup_state (ev : event) : bool :=
  match ev with
  | FlaskCreated | ThreadStarted | ApplicationBuilt _ | HandlersAdded => true
  | _ => false
  end.

End Startup.

(** ** Vocabulary of the properties *)

(** The first line of a text and the lines after it. *)
Definition first_line (s : str) : str := hd [] (str_split_lf s).

Definition more_lines (s : str) : list str := tl (str_split_lf s).

(** The lines of one labelled entry: the label opens the first line. *)
Definition entry_lines (label variant : str) : list str :=
  (label ++ first_line variant) :: more_lines variant.

(** The text consists of exactly eight lines, and they open with the eight
    labels in their order. *)
Definition eight_labeled_lines (out : str) : bool :=
  let lines := str_split_lf out in
  Nat.eqb (length lines) 8
  && forallb (fun '(label, line) => startswith label line)
       (combine labels lines).

(** Case mappings keep a line a line: no character other than the line feed
    maps to text with a line feed in it (the Unicode tables are such). *)
Record line_safe (U : CaseTables) : Prop := {
  upper_one_line : forall c, c <> LF -> ~ In LF (to_upper_full U c);
  lower_one_line : forall c, c <> LF -> ~ In LF (to_lower_full U c);
  title_one_line : forall c, c <> LF -> ~ In LF (to_title_full U c)
}.

(** Title case as the specification words it: words are delimited by
    whitespace only; the first character of a word takes its upper-case form
    and the others their lower-case form. *)
Fixpoint title_by_whitespace (U : CaseTables) (at_word_start : bool) (s : str)
  : str :=
  match s with
  | [] => []
  | c :: rest =>
      if is_space c then c :: title_by_whitespace U true rest
      else (if at_word_start then str_upper U [c] else str_lower U [c])
           ++ title_by_whitespace U false rest
  end.

Definition title_whitespace_words (U : CaseTables) (s : str) : str :=
  title_by_whitespace U true s.

(** Position [i] of [s] opens a word for [str.title]: it is the first
    position, or the character before it is not cased. *)
Definition starts_word (U : CaseTables) (s : str) (i : nat) : bool :=
  match i with
  | O => true
  | S j => negb (is_cased U (nth j s 0%N))
  end.

(** What [str.title] writes for position [i] of [s]. *)
Definition title_at (U : CaseTables) (s : str) (i : nat) : str :=
  if starts_word U s i then to_title_full U (nth i s 0%N)
  else lower_ucs4 U (rev (firstn i s)) (nth i s 0%N) (skipn (S i) s).

(** Both case forms of the character are one character long. *)
Definition single_case_forms (U : CaseTables) (c : codepoint) : Prop :=
  length (str_upper U [c]) = 1 /\ length (str_lower U [c]) = 1.

(** Empty, or opening with a character that is not whitespace. *)
Definition left_trimmed (s : str) : Prop :=
  match s with
  | [] => True
  | c :: _ => is_space c = false
  end.

(** The three fixed replies of the conversation. *)
Definition complaint : sent :=
  {| sent_text := invalid_name_message; sent_markup := None |}.

Definition welcome : sent :=
  {| sent_text := welcome_message; sent_markup := None |}.

Definition cancellation : sent :=
  {| sent_text := cancelled_message;
     sent_markup :=
       Some {| keyboard := [[lit "/start"]]; resize_keyboard := true |} |}.

(** A space strictly inside the text: neither its first nor its last
    character. *)
Definition internal_space (s : str) : Prop :=
  exists p q, p <> [] /\ q <> [] /\ s = p ++ SP :: q.

(** A name of two lines: [a], line feed, [b]. *)
Definition two_line_name : str := [0x61; LF; 0x62]%N.

(** [s[::2]] and [s[::3]]: every second and every third character, from
    the first on. *)
Fixpoint every_other (s : str) : str :=
  match s with
  | [] => []
  | c :: rest =>
      c :: match rest with
           | [] => []
           | _ :: rest' => every_other rest'
           end
  end.

Fixpoint every_third (s : str) : str :=
  match s with
  | [] => []
  | c :: rest =>
      c :: match rest with
           | _ :: _ :: rest' => every_third rest'
           | _ => []
           end
  end.

(** The upper-case, lower-case and title-case forms of the character are
    all one character long. *)
Definition single_forms (U : CaseTables) (c : codepoint) : Prop :=
  single_case_forms U c /\ length (to_title_full U c) = 1.

(** Every character is whitespace (so is the empty text). *)
Definition blank (s : str) : bool := forallb is_space s.

(** The other replies: the help text, the styles of a name, and the prompt
    that follows them. *)
Definition help_reply : sent :=
  {| sent_text := help_text; sent_markup := None |}.

Definition styles_reply (U : CaseTables) (user_name : str) : sent :=
  {| sent_text := response_header user_name ++ create_name_styles U user_name;
     sent_markup := None |}.

Definition try_again_reply : sent :=
  {| sent_text := try_again_message;
     sent_markup :=
       Some {| keyboard := [[lit "/start"; lit "/help"]];
               resize_keyboard := true |} |}.

(** Updates of one conversation processed one after the other: the state
    each leaves is the state the next one finds, and the messages sent add
    up in order. *)
Fixpoint process_updates (U : CaseTables) (state : option Z)
  (us : list update) : option Z * list sent :=
  match us with
  | [] => (state, [])
  | u :: rest =>
      let (state', msgs) := process_update U state u in
      let (state'', msgs') := process_updates U state' rest in
      (state'', msgs ++ msgs')
  end.

(** The buttons of the reply keyboard a message carries. *)
Definition buttons (m : sent) : list str :=
  match sent_markup m with
  | Some k => concat (keyboard k)
  | None => []
  end.

(** Pressing a button sends its text; a text that opens with a slash arrives
    as that command. *)
Definition button_update (b : str) : update :=
  match b with
  | 0x2F%N :: name => Command name
  | _ => Text b
  end.

(** * Properties *)

Example ana_styles :
  styles_of Latin1.tables (lit "Ana") =
  [lbl_normal ++ lit "Ana"; lbl_upper ++ lit "ANA"; lbl_lower ++ lit "ana";
   lbl_title ++ lit "Ana"; lbl_alternating ++ lit "AnA";
   lbl_reverse ++ lit "anA";
   lbl_emojis ++ [65; SPARKLES; SP; 110; SPARKLES; SP; 97; SPARKLES]%N;
   lbl_spaced ++ lit "A n a"].
Proof. vm_compute. reflexivity. Qed.

Example startup_with_token :
  Startup.run (Startup.module_body (fun _ => Some (lit "123:abc")) true) =
  (inr tt,
   [Startup.LoggingConfigured; Startup.FlaskCreated; Startup.ThreadStarted;
    Startup.HttpStarted]).
Proof. reflexivity. Qed.

(** The bot thread builds the application and adds the handlers, and stops
    at [run_polling]. *)
Example bot_thread_stops (TOKEN : str) :
  Startup.run (Startup.bot_thread TOKEN) =
  (inl Startup.RuntimeError,
   [Startup.ApplicationBuilt TOKEN; Startup.HandlersAdded]).
Proof. reflexivity. Qed.

(** ** Lines of a joined text *)

Lemma split_lf_shape (s : str) :
  str_split_lf s = first_line s :: more_lines s.
Proof.
  unfold first_line, more_lines.
  destruct s as [|c r]; simpl; [reflexivity|].
  destruct (N.eqb c LF); [reflexivity|].
  destruct (str_split_lf r); reflexivity.
Qed.

Lemma split_lf_prefix (p s : str) :
  ~ In LF p ->
  str_split_lf (p ++ s) = (p ++ first_line s) :: more_lines s.
Proof.
  induction p as [|c p IH]; intros Hp; simpl.
  - apply split_lf_shape.
  - destruct (N.eqb_spec c LF) as [->|_].
    + exfalso; apply Hp; now left.
    + rewrite IH; [reflexivity|].
      intros H; apply Hp; now right.
Qed.

Lemma split_lf_whole (s : str) : ~ In LF s -> str_split_lf s = [s].
Proof.
  intros H. rewrite <- (app_nil_r s) at 1.
  rewrite (split_lf_prefix s [] H). simpl. now rewrite app_nil_r.
Qed.

Lemma first_line_whole (s : str) : ~ In LF s -> first_line s = s.
Proof. intros H. unfold first_line. now rewrite split_lf_whole. Qed.

Lemma more_lines_none (s : str) : ~ In LF s -> more_lines s = [].
Proof. intros H. unfold more_lines. now rewrite split_lf_whole. Qed.

Lemma split_lf_app (x r : str) :
  str_split_lf (x ++ LF :: r) = str_split_lf x ++ str_split_lf r.
Proof.
  induction x as [|c x IH]; simpl; [reflexivity|].
  destruct (N.eqb c LF).
  - now rewrite IH.
  - rewrite IH, (split_lf_shape x). reflexivity.
Qed.

Lemma split_lf_join (xs : list str) :
  xs <> [] ->
  str_split_lf (str_join [LF] xs) = flat_map str_split_lf xs.
Proof.
  induction xs as [|x rest IH]; intros Hne; [contradiction|].
  destruct rest as [|y rest].
  - simpl. now rewrite app_nil_r.
  - change (str_join [LF] (x :: y :: rest))
      with (x ++ LF :: str_join [LF] (y :: rest)).
    rewrite split_lf_app, IH by discriminate. reflexivity.
Qed.

Ltac absent_in_literal :=
  let H := fresh in
  intros H; vm_compute in H;
  repeat (destruct H as [H|H]; [discriminate H|]); exact H.

Lemma labels_one_line : Forall (fun l => ~ In LF l) labels.
Proof. repeat constructor; absent_in_literal. Qed.

Lemma styles_of_lines (U : CaseTables) (name : str) :
  str_split_lf (create_name_styles U name) =
  entry_lines lbl_normal name
  ++ entry_lines lbl_upper (str_upper U name)
  ++ entry_lines lbl_lower (str_lower U name)
  ++ entry_lines lbl_title (str_title U name)
  ++ entry_lines lbl_alternating (alternating U name)
  ++ entry_lines lbl_reverse (rev name)
  ++ entry_lines lbl_emojis (emoji_name name)
  ++ entry_lines lbl_spaced (spaced name).
Proof.
  unfold create_name_styles. rewrite split_lf_join by discriminate.
  pose proof labels_one_line as L. unfold labels in L.
  repeat match goal with
         | H : Forall _ (_ :: _) |- _ => inversion H; clear H; subst
         end.
  unfold styles_of, append, entry_lines. cbn [app flat_map].
  rewrite !split_lf_prefix by assumption.
  rewrite app_nil_r. reflexivity.
Qed.

Lemma startswith_app (p s : str) : startswith p (p ++ s) = true.
Proof.
  induction p as [|c p IH]; simpl; [reflexivity|].
  now rewrite N.eqb_refl.
Qed.

(** ** Variants of a one-line name stay on one line *)

Lemma in_str_join (x : codepoint) (sep : str) (xs : list str) :
  In x (str_join sep xs) ->
  In x sep \/ exists y, In y xs /\ In x y.
Proof.
  induction xs as [|y rest IH]; simpl; [contradiction|].
  destruct rest as [|z rest].
  - intros H. right. exists y. auto.
  - rewrite !in_app_iff. intros [H|[H|H]].
    + right. exists y. auto.
    + now left.
    + destruct (IH H) as [Hs|[w [Hw Hx]]]; [now left|].
      right. exists w. auto.
Qed.

Lemma str_join_empty_sep (xs : list str) : str_join [] xs = concat xs.
Proof.
  induction xs as [|y rest IH]; [reflexivity|].
  destruct rest as [|z rest].
  - simpl. now rewrite app_nil_r.
  - change (str_join [] (y :: z :: rest)) with (y ++ str_join [] (z :: rest)).
    now rewrite IH.
Qed.

Lemma in_enumerate_from (i j : nat) (c : codepoint) (s : str) :
  In (j, c) (enumerate_from i s) -> In c s.
Proof.
  revert i. induction s as [|d s IH]; simpl; intros i; [tauto|].
  intros [H|H]; [left; congruence | right; eauto].
Qed.

Section OneLine.
Variable U : CaseTables.
Hypothesis safe : line_safe U.

Lemma str_upper_one_line (s : str) : ~ In LF s -> ~ In LF (str_upper U s).
Proof.
  unfold str_upper. intros Hs H.
  apply in_flat_map in H as [c [Hc H]].
  apply (upper_one_line U safe c); [congruence | exact H].
Qed.

Lemma lower_ucs4_one_line (before_rev : str) (c : codepoint) (after : str) :
  c <> LF -> ~ In LF (lower_ucs4 U before_rev c after).
Proof.
  intros Hc. unfold lower_ucs4.
  destruct (N.eqb c 0x3A3).
  - unfold handle_capital_sigma.
    repeat match goal with
           | |- context [if ?b then _ else _] => destruct b
           | |- context [match ?o with Some _ => _ | None => _ end] =>
               destruct o
           end; absent_in_literal.
  - now apply (lower_one_line U safe).
Qed.

Lemma do_lower_one_line (rest before_rev : str) :
  ~ In LF rest -> ~ In LF (do_lower U before_rev rest).
Proof.
  revert before_rev.
  induction rest as [|c after IH]; intros before_rev Hs; simpl; [tauto|].
  rewrite in_app_iff. intros [H|H].
  - revert H. apply lower_ucs4_one_line.
    intros ->. apply Hs. now left.
  - revert H. apply IH. intros H. apply Hs. now right.
Qed.

Lemma do_title_one_line (rest before_rev : str) (prev : bool) :
  ~ In LF rest -> ~ In LF (do_title U prev before_rev rest).
Proof.
  revert before_rev prev.
  induction rest as [|c after IH]; intros before_rev prev Hs; simpl;
    [tauto|].
  assert (Hc : c <> LF) by (intros ->; apply Hs; now left).
  rewrite in_app_iff. intros [H|H].
  - destruct prev.
    + revert H. now apply lower_ucs4_one_line.
    + revert H. now apply (title_one_line U safe).
  - revert H. apply IH. intros H. apply Hs. now right.
Qed.

Lemma alternating_one_line (name : str) :
  ~ In LF name -> ~ In LF (alternating U name).
Proof.
  unfold alternating. rewrite str_join_empty_sep. intros Hs H.
  apply in_concat in H as [piece [Hp H]].
  apply in_map_iff in Hp as [[i c] [<- Hic]].
  apply in_enumerate_from in Hic.
  assert (Hc : ~ In LF [c]) by (intros [->|[]]; contradiction).
  destruct (Nat.eqb (i mod 2) 0).
  - revert H. now apply str_upper_one_line.
  - revert H. now apply do_lower_one_line.
Qed.
End OneLine.

Lemma emoji_name_one_line (name : str) :
  ~ In LF name -> ~ In LF (emoji_name name).
Proof.
  unfold emoji_name, chars. intros Hs H.
  apply in_str_join in H as [H|[y [Hy H]]].
  - revert H. absent_in_literal.
  - rewrite map_map in Hy. apply in_map_iff in Hy as [c [<- Hc]].
    apply in_app_iff in H as [[H|[]]|H].
    + apply Hs. now rewrite <- H.
    + revert H. absent_in_literal.
Qed.

Lemma spaced_one_line (name : str) : ~ In LF name -> ~ In LF (spaced name).
Proof.
  unfold spaced, chars. intros Hs H.
  apply in_str_join in H as [H|[y [Hy H]]].
  - revert H. absent_in_literal.
  - apply in_map_iff in Hy as [c [<- Hc]].
    destruct H as [H|[]]. apply Hs. now rewrite <- H.
Qed.

Lemma entry_lines_one_line (label variant : str) :
  ~ In LF variant -> entry_lines label variant = [label ++ variant].
Proof.
  intros H. unfold entry_lines.
  now rewrite first_line_whole, more_lines_none.
Qed.

Lemma one_line_name_lines (U : CaseTables) (name : str) :
  line_safe U ->
  ~ In LF name ->
  str_split_lf (create_name_styles U name) =
    [lbl_normal ++ name;
     lbl_upper ++ str_upper U name;
     lbl_lower ++ str_lower U name;
     lbl_title ++ str_title U name;
     lbl_alternating ++ alternating U name;
     lbl_reverse ++ rev name;
     lbl_emojis ++ emoji_name name;
     lbl_spaced ++ spaced name].
Proof.
  intros safe Hname. rewrite styles_of_lines.
  rewrite (entry_lines_one_line lbl_normal name Hname).
  rewrite entry_lines_one_line by now apply str_upper_one_line.
  rewrite entry_lines_one_line by now apply do_lower_one_line.
  rewrite entry_lines_one_line by now apply do_title_one_line.
  rewrite entry_lines_one_line by now apply alternating_one_line.
  rewrite entry_lines_one_line by now rewrite <- in_rev.
  rewrite entry_lines_one_line by now apply emoji_name_one_line.
  rewrite entry_lines_one_line by now apply spaced_one_line.
  reflexivity.
Qed.

Lemma split_lf_two_lines (s : str) :
  In LF s -> 2 <= length (str_split_lf s).
Proof.
  induction s as [|c s IH]; [intros []|].
  intros H. cbn [str_split_lf].
  destruct (N.eqb_spec c LF) as [_|Hc].
  - rewrite (split_lf_shape s). cbn [length]. lia.
  - destruct H as [H|H]; [congruence|].
    specialize (IH H). rewrite (split_lf_shape s) in IH |- *.
    exact IH.
Qed.

(** ** The eight lines (C1, C9) *)

(** C1, as amended.  For every name without a line feed in it (the empty
    name too), over case tables that keep a line a line, the text the engine
    returns splits at line feeds into exactly eight lines: the labels
    Normal, Uppercase, Lowercase, Title Case, Alternating, Reverse, With
    Emojis, Spaced Out, in this order, each followed by its variant. *)
Theorem create_name_styles_eight_lines (U : CaseTables) (name : str) :
  line_safe U ->
  ~ In LF name ->
  str_split_lf (create_name_styles U name) =
    [lbl_normal ++ name;
     lbl_upper ++ str_upper U name;
     lbl_lower ++ str_lower U name;
     lbl_title ++ str_title U name;
     lbl_alternating ++ alternating U name;
     lbl_reverse ++ rev name;
     lbl_emojis ++ emoji_name name;
     lbl_spaced ++ spaced name]
  /\ eight_labeled_lines (create_name_styles U name) = true.
Proof.
  intros safe Hname.
  assert (E : str_split_lf (create_name_styles U name) =
    [lbl_normal ++ name;
     lbl_upper ++ str_upper U name;
     lbl_lower ++ str_lower U name;
     lbl_title ++ str_title U name;
     lbl_alternating ++ alternating U name;
     lbl_reverse ++ rev name;
     lbl_emojis ++ emoji_name name;
     lbl_spaced ++ spaced name]).
  { rewrite styles_of_lines.
    rewrite (entry_lines_one_line lbl_normal name Hname).
    rewrite entry_lines_one_line by now apply str_upper_one_line.
    rewrite entry_lines_one_line by now apply do_lower_one_line.
    rewrite entry_lines_one_line by now apply do_title_one_line.
    rewrite entry_lines_one_line by now apply alternating_one_line.
    rewrite entry_lines_one_line by now rewrite <- in_rev.
    rewrite entry_lines_one_line by now apply emoji_name_one_line.
    rewrite entry_lines_one_line by now apply spaced_one_line.
    reflexivity. }
  split; [exact E|].
  unfold eight_labeled_lines. rewrite E.
  unfold labels. cbn [length Nat.eqb combine forallb andb].
  now rewrite !startswith_app.
Qed.

Ltac bools_to_props :=
  repeat match goal with
         | H : _ && _ = true |- _ => apply andb_true_iff in H; destruct H
         | H : _ && _ = false |- _ => apply andb_false_iff in H
         | H : negb _ = true |- _ => apply negb_true_iff in H
         | H : negb _ = false |- _ => apply negb_false_iff in H
         | H : (_ <=? _)%N = true |- _ => apply N.leb_le in H
         | H : (_ <=? _)%N = false |- _ => apply N.leb_gt in H
         | H : (_ =? _)%N = true |- _ => apply N.eqb_eq in H
         | H : (_ =? _)%N = false |- _ => apply N.eqb_neq in H
         end.

Lemma latin1_line_safe : line_safe Latin1.tables.
Proof.
  split; intros c Hc; cbn;
    unfold Latin1.title, Latin1.upper, Latin1.lower, Latin1.in_range;
    repeat match goal with
           | |- context [if ?b then _ else _] => destruct b eqn:?
           end;
    unfold LF in *; cbn [In]; bools_to_props; lia.
Qed.

Lemma create_name_styles_eight_lines_witness :
  eight_labeled_lines (create_name_styles Latin1.tables (lit "Ana")) = true.
Proof.
  refine (proj2 (create_name_styles_eight_lines Latin1.tables (lit "Ana")
                   latin1_line_safe _)).
  absent_in_literal.
Defined.

(** C1 as stated fails on a name with a line feed inside: the name [a], line
    feed, [b] is not empty and is left as it is by [strip], and the text
    returned for it has sixteen lines, eight of them without a label. *)
Lemma create_name_styles_eight_lines_counterexample :
  two_line_name <> [] /\ str_strip two_line_name = two_line_name /\
  length (str_split_lf (create_name_styles Latin1.tables two_line_name)) = 16
  /\ eight_labeled_lines (create_name_styles Latin1.tables two_line_name)
     = false.
Proof.
  split; [discriminate|].
  split; [|split]; vm_compute; reflexivity.
Qed.

(** C9, as amended.  For every string, the empty one included, the engine
    returns a text (no operation in it can fail): the eight labelled
    entries, each label followed by its variant of the string, joined by
    line feeds, and the lines of the text are the lines of these entries in
    their order.  On the empty string the text is exactly the eight labelled
    lines.  Over case tables that keep a line a line, the text is exactly
    eight labelled lines if and only if the string has no line feed in
    it. *)
Theorem create_name_styles_total (U : CaseTables) (name : str) :
  create_name_styles U name =
    str_join [LF]
      [lbl_normal ++ name;
       lbl_upper ++ str_upper U name;
       lbl_lower ++ str_lower U name;
       lbl_title ++ str_title U name;
       lbl_alternating ++ alternating U name;
       lbl_reverse ++ rev name;
       lbl_emojis ++ emoji_name name;
       lbl_spaced ++ spaced name]
  /\ str_split_lf (create_name_styles U name) =
       entry_lines lbl_normal name
       ++ entry_lines lbl_upper (str_upper U name)
       ++ entry_lines lbl_lower (str_lower U name)
       ++ entry_lines lbl_title (str_title U name)
       ++ entry_lines lbl_alternating (alternating U name)
       ++ entry_lines lbl_reverse (rev name)
       ++ entry_lines lbl_emojis (emoji_name name)
       ++ entry_lines lbl_spaced (spaced name)
  /\ eight_labeled_lines (create_name_styles U []) = true
  /\ (line_safe U ->
      (eight_labeled_lines (create_name_styles U name) = true
       <-> ~ In LF name)).
Proof.
  split; [reflexivity|]. split; [apply styles_of_lines|].
  split; [reflexivity|].
  intros safe. split.
  - intros Height Hin. unfold eight_labeled_lines in Height.
    apply andb_true_iff in Height as [Hlen _].
    apply Nat.eqb_eq in Hlen. rewrite styles_of_lines in Hlen.
    pose proof (split_lf_two_lines name Hin) as Htwo.
    rewrite (split_lf_shape name) in Htwo.
    unfold entry_lines in Hlen.
    repeat (rewrite length_app in Hlen || cbn [length] in Hlen).
    cbn [length] in Htwo. lia.
  - intros Hname. unfold eight_labeled_lines.
    rewrite (one_line_name_lines U name safe Hname).
    unfold labels. cbn [length Nat.eqb combine forallb andb].
    now rewrite !startswith_app.
Qed.

Lemma create_name_styles_total_witness :
  eight_labeled_lines (create_name_styles Latin1.tables []) = true.
Proof.
  refine (proj2 (proj2 (proj2 (proj2
            (create_name_styles_total Latin1.tables []))) latin1_line_safe)
            _).
  intros [].
Defined.

(** C9 as stated fails on the string that is one line feed: the engine
    returns, but the text has sixteen lines and not the eight labelled
    ones. *)
Lemma create_name_styles_total_counterexample :
  length (str_split_lf (create_name_styles Latin1.tables [LF])) = 16
  /\ eight_labeled_lines (create_name_styles Latin1.tables [LF]) = false.
Proof. split; vm_compute; reflexivity. Qed.

(** ** Title case (C2) *)

Lemma nth_rev_cons_length (b : str) (c : codepoint) (rest : str) :
  nth (length b) (rev b ++ c :: rest) 0%N = c.
Proof.
  rewrite app_nth2; rewrite length_rev; [|lia].
  now rewrite Nat.sub_diag.
Qed.

Lemma firstn_rev_length (b rest : str) :
  firstn (length b) (rev b ++ rest) = rev b.
Proof.
  rewrite <- (length_rev b). rewrite firstn_app, Nat.sub_diag, firstn_all.
  simpl. now rewrite app_nil_r.
Qed.

Lemma skipn_rev_length (b : str) (c : codepoint) (rest : str) :
  skipn (S (length b)) (rev b ++ c :: rest) = rest.
Proof.
  rewrite <- (length_rev b).
  change (rev b ++ c :: rest) with (rev b ++ [c] ++ rest).
  rewrite app_assoc.
  replace (S (length (rev b))) with (length (rev b ++ [c]))
    by (rewrite length_app; simpl; lia).
  rewrite skipn_app, skipn_all, Nat.sub_diag. reflexivity.
Qed.

(** The loop of [str.title], started in the middle of a text: [before_rev]
    is what it has read and [prev] says whether the last character read is
    cased. *)
Lemma do_title_positional (U : CaseTables) (rest before_rev : str) (prev : bool) :
  prev = match before_rev with
         | [] => false
         | p :: _ => is_cased U p
         end ->
  do_title U prev before_rev rest =
  flat_map (title_at U (rev before_rev ++ rest))
    (seq (length before_rev) (length rest)).
Proof.
  revert before_rev prev.
  induction rest as [|c after IH]; intros before_rev prev Hprev;
    [reflexivity|].
  cbn [do_title length seq flat_map]. f_equal.
  - unfold title_at, starts_word.
    rewrite nth_rev_cons_length, firstn_rev_length, skipn_rev_length, rev_involutive.
    destruct before_rev as [|p b].
    + now subst prev.
    + cbn [length rev]. rewrite <- app_assoc. cbn [app].
      rewrite (nth_rev_cons_length b p (c :: after)).
      subst prev. now destruct (is_cased U p).
  - rewrite (IH (c :: before_rev) (is_cased U c) eq_refl).
    cbn [rev length]. now rewrite <- app_assoc.
Qed.

(** C2, as amended.  The Title Case entry is the label followed by
    [name.title()], and for every name that text is made position by
    position: a character that is first, or that follows a character that
    is not cased, takes its title-case form; a character that follows a
    cased one takes its lower-case form.  Every uncased character
    (whitespace, but also a digit, an apostrophe, a hyphen) ends a word. *)
Theorem title_case_by_cased_runs (U : CaseTables) (name : str) :
  nth_error (styles_of U name) 3 = Some (lbl_title ++ str_title U name)
  /\ str_title U name = flat_map (title_at U name) (seq 0 (length name)).
Proof.
  split; [reflexivity|].
  unfold str_title. now rewrite (do_title_positional U name [] false eq_refl).
Qed.

(** C2 as stated fails on [o'neil]: the engine writes [O'Neil], where
    capitalising whitespace-delimited words gives [O'neil]. *)
Lemma title_case_whitespace_counterexample :
  nth_error (styles_of Latin1.tables (lit "o'neil")) 3
    = Some (lbl_title ++ lit "O'Neil")
  /\ title_whitespace_words Latin1.tables (lit "o'neil") = lit "O'neil"
  /\ str_title Latin1.tables (lit "o'neil")
     <> title_whitespace_words Latin1.tables (lit "o'neil").
Proof.
  split; [|split]; [vm_compute; reflexivity ..|].
  vm_compute. discriminate.
Qed.

(** ** Alternating case (C3) *)

Lemma alternating_length_from (U : CaseTables) (name : str) (i : nat) :
  Forall (single_case_forms U) name ->
  length
    (concat
       (map (fun '(i, char) =>
               if Nat.eqb (i mod 2) 0 then str_upper U [char]
               else str_lower U [char])
          (enumerate_from i name))) = length name.
Proof.
  intros Hall. revert i.
  induction Hall as [|c name [Hup Hlow] _ IH]; intros i; [reflexivity|].
  cbn [enumerate_from map concat]. rewrite length_app, IH.
  destruct (Nat.eqb (i mod 2) 0); [rewrite Hup | rewrite Hlow]; reflexivity.
Qed.

(** C3, as amended.  The Alternating entry is the label followed by the
    alternating text, and that text has the length of the name whenever both
    case forms of each of its characters are one character long. *)
Theorem alternating_same_length (U : CaseTables) (name : str) :
  Forall (single_case_forms U) name ->
  nth_error (styles_of U name) 4
    = Some (lbl_alternating ++ alternating U name)
  /\ length (alternating U name) = length name.
Proof.
  intros Hall. split; [reflexivity|].
  unfold alternating, enumerate. rewrite str_join_empty_sep.
  now apply alternating_length_from.
Qed.

(** In the Latin-1 table the ASCII characters have one-character forms. *)
Lemma latin1_ascii_single_case_forms (c : codepoint) :
  (c < 128)%N -> single_case_forms Latin1.tables c.
Proof.
  intros Hc. unfold single_case_forms, str_upper, str_lower.
  cbn [flat_map do_lower app]. unfold lower_ucs4.
  destruct (N.eqb_spec c 0x3A3) as [->|_]; [lia|].
  cbn [to_upper_full to_lower_full Latin1.tables].
  unfold Latin1.upper, Latin1.lower, Latin1.in_range.
  repeat match goal with
         | |- context [if ?b then _ else _] => destruct b eqn:?
         end;
    bools_to_props; try (split; reflexivity); lia.
Qed.

Lemma alternating_same_length_witness :
  length (alternating Latin1.tables (lit "Ana")) = length (lit "Ana").
Proof.
  refine (proj2 (alternating_same_length Latin1.tables (lit "Ana") _)).
  repeat constructor.
Defined.

(** C3 as stated fails on [Straße]: the sharp s stands at an even index and
    its upper-case form is [SS], so the alternating text [StRaSSe] has seven
    characters for a name of six. *)
Lemma alternating_same_length_counterexample :
  alternating Latin1.tables (lit "Stra" ++ [0xDF%N] ++ lit "e")
    = lit "StRaSSe"
  /\ length (alternating Latin1.tables (lit "Stra" ++ [0xDF%N] ++ lit "e"))
     <> length (lit "Stra" ++ [0xDF%N] ++ lit "e").
Proof. split; vm_compute; [reflexivity | discriminate]. Qed.

(** ** Trimming *)

Lemma lstrip_left_trimmed (s : str) : left_trimmed (lstrip s).
Proof.
  induction s as [|c s IH]; simpl; [exact I|].
  destruct (is_space c) eqn:E; [exact IH | exact E].
Qed.

Lemma lstrip_fixed (s : str) : left_trimmed s -> lstrip s = s.
Proof.
  destruct s as [|c s]; simpl; [reflexivity|].
  now intros ->.
Qed.

Lemma lstrip_snoc (p : str) (c : codepoint) :
  is_space c = false -> exists q, lstrip (p ++ [c]) = q ++ [c].
Proof.
  intros Hc. induction p as [|d p IH]; simpl.
  - rewrite Hc. now exists [].
  - destruct (is_space d); [exact IH|]. now exists (d :: p).
Qed.

Lemma rstrip_left_trimmed (s : str) : left_trimmed s -> left_trimmed (rstrip s).
Proof.
  unfold rstrip. destruct s as [|c s]; [intros _; exact I|].
  cbn [left_trimmed rev]. intros Hc.
  destruct (lstrip_snoc (rev s) c Hc) as [q ->].
  rewrite rev_app_distr. exact Hc.
Qed.

Lemma str_strip_idempotent (s : str) : str_strip (str_strip s) = str_strip s.
Proof.
  unfold str_strip.
  rewrite (lstrip_fixed (rstrip (lstrip s)))
    by apply rstrip_left_trimmed, lstrip_left_trimmed.
  unfold rstrip. rewrite rev_involutive.
  now rewrite (lstrip_fixed (lstrip (rev (lstrip s))))
    by apply lstrip_left_trimmed.
Qed.

(** ** Spaced out (C4) *)

Lemma spaced_cons (c d : codepoint) (rest : str) :
  spaced (c :: d :: rest) = c :: SP :: spaced (d :: rest).
Proof. reflexivity. Qed.

Lemma spaced_without_spaces (name : str) :
  ~ In SP name -> remove_spaces (spaced name) = name.
Proof.
  intros Hname.
  induction name as [|c rest IH]; [reflexivity|].
  assert (Hc : N.eqb c SP = false)
    by (apply N.eqb_neq; intros ->; apply Hname; now left).
  assert (Hrest : ~ In SP rest) by (intros H; apply Hname; now right).
  destruct rest as [|d rest].
  - unfold spaced, remove_spaces. cbn [chars map str_join filter].
    now rewrite Hc.
  - rewrite spaced_cons. unfold remove_spaces in *.
    cbn [filter]. rewrite Hc, (N.eqb_refl SP). cbn [negb].
    now rewrite (IH Hrest).
Qed.

(** A trimmed text neither opens nor closes with whitespace. *)
Lemma trimmed_both_ends (s : str) :
  str_strip s = s -> left_trimmed s /\ left_trimmed (rev s).
Proof.
  intros E. rewrite <- E. split.
  - apply rstrip_left_trimmed, lstrip_left_trimmed.
  - unfold str_strip, rstrip. rewrite rev_involutive.
    apply lstrip_left_trimmed.
Qed.

(** So a space in a trimmed text is an internal one. *)
Lemma trimmed_space_is_internal (s : str) :
  str_strip s = s -> In SP s -> internal_space s.
Proof.
  intros E H. destruct (trimmed_both_ends s E) as [Hl Hr].
  apply in_split in H as [p [q ->]].
  exists p, q. repeat split.
  - intros ->. discriminate Hl.
  - intros ->. rewrite rev_app_distr in Hr. discriminate Hr.
Qed.

(** C4.  The Spaced Out entry is the label followed by the characters of the
    name joined by single spaces, and for a name as the engine receives it
    (trimmed) with no internal space, removing the spaces from that text
    gives the name back. *)
Theorem spaced_out_round_trip (U : CaseTables) (name : str) :
  str_strip name = name ->
  ~ internal_space name ->
  nth_error (styles_of U name) 7 = Some (lbl_spaced ++ spaced name)
  /\ remove_spaces (spaced name) = name.
Proof.
  intros Htrim Hinner. split; [reflexivity|].
  apply spaced_without_spaces.
  intros H. apply Hinner. now apply trimmed_space_is_internal.
Qed.

Lemma spaced_out_round_trip_witness :
  remove_spaces (spaced (lit "Ana")) = lit "Ana".
Proof.
  refine (proj2 (spaced_out_round_trip Latin1.tables (lit "Ana") _ _)).
  - reflexivity.
  - intros [p [q [_ [_ E]]]].
    assert (H : In SP (lit "Ana")) by (rewrite E; apply in_elt).
    revert H. absent_in_literal.
Defined.

(** With a space inside the name the round trip loses it. *)
Example spaced_out_inner_space :
  spaced (lit "a b") = lit "a   b"
  /\ remove_spaces (spaced (lit "a b")) = lit "ab".
Proof. split; reflexivity. Qed.

(** ** The name handler (C10) *)

(** C10.  The name handler does on a text what it does on the text trimmed:
    the same messages (complaint, or header with the name and the styles of
    the name) and the same next state, from every outbox. *)
Theorem get_name_ignores_surrounding_whitespace
  (U : CaseTables) (t : str) (out : list sent) :
  get_name U (Text t) out = get_name U (Text (str_strip t)) out.
Proof.
  unfold get_name. cbn [message_text].
  now rewrite str_strip_idempotent.
Qed.

Example get_name_padded :
  run (get_name Latin1.tables (Text (lit "  Ana ")))
  = run (get_name Latin1.tables (Text (lit "Ana")))
  /\ fst (run (get_name Latin1.tables (Text (lit "  Ana ")))) = Some END.
Proof. split; vm_compute; reflexivity. Qed.

(** ** The conversation (C5, C6, C7) *)

(** In [AwaitingName] a text message with a non-empty text goes to
    [get_name]. *)
Lemma awaiting_text_handler (U : CaseTables) (c : codepoint) (text : str) :
  conv_check_update (conv_handler U) AwaitingName (Text (c :: text)) =
  Some (MessageHandler
          (fun u => filters_TEXT u && negb (filters_COMMAND u))
          (get_name U)).
Proof. reflexivity. Qed.

(** C5.  In [AwaitingName], a text message (its text is not empty) that is
    empty after trimming is answered with the complaint alone, and the
    session stays in [AwaitingName]. *)
Theorem blank_name_stays_awaiting (U : CaseTables) (text : str) :
  text <> [] ->
  str_strip text = [] ->
  process_update U AwaitingName (Text text) = (AwaitingName, [complaint]).
Proof.
  intros Hne Hblank.
  destruct text as [|c text]; [contradiction|].
  unfold process_update, run, handlers. cbn [dispatch].
  rewrite awaiting_text_handler. cbn [callback MessageHandler].
  unfold bind, get_name. cbn [message_text]. rewrite Hblank.
  reflexivity.
Qed.

Lemma blank_name_stays_awaiting_witness :
  process_update Latin1.tables AwaitingName (Text (lit "   "))
  = (AwaitingName, [complaint]).
Proof.
  apply blank_name_stays_awaiting; [discriminate | reflexivity].
Defined.

Example idle_start (U : CaseTables) :
  process_update U Idle (Command (lit "start")) = (AwaitingName, [welcome]).
Proof. reflexivity. Qed.

Example awaiting_cancel (U : CaseTables) :
  process_update U AwaitingName (Command (lit "cancel"))
  = (Idle, [cancellation]).
Proof. reflexivity. Qed.

Example awaiting_name_ana :
  fst (process_update Latin1.tables AwaitingName (Text (lit "Ana"))) = Idle
  /\ map sent_text
       (snd (process_update Latin1.tables AwaitingName (Text (lit "Ana"))))
     = [response_header (lit "Ana")
        ++ create_name_styles Latin1.tables (lit "Ana");
        try_again_message].
Proof. split; vm_compute; reflexivity. Qed.

Example help_keeps_state (U : CaseTables) (state : option Z) :
  fst (process_update U state (Command (lit "help"))) = state.
Proof. destruct state as [z|]; [|reflexivity]. unfold process_update, run, handlers. cbn [dispatch].
  unfold conv_check_update, conv_handler.
  cbn [allow_reentry states entry_points fallbacks].
  destruct (first_match (states_get _ z) (Command (lit "help"))) as [h|] eqn:E.
  - unfold states_get in E. cbn [find fst snd] in E.
    destruct (Z.eqb GET_NAME z); discriminate E.
  - reflexivity.
Qed.

(** C6, as amended.  In [AwaitingName] the entry command is not handled:
    the conversation does not allow re-entry, the state's handler takes no
    command and the only fallback is [cancel]; no message is sent and the
    session stays in [AwaitingName]. *)
Theorem start_while_awaiting_ignored (U : CaseTables) :
  process_update U AwaitingName (Command (lit "start")) = (AwaitingName, []).
Proof. reflexivity. Qed.

(** C6 as stated fails: the welcome prompt is not sent again. *)
Lemma start_while_awaiting_counterexample :
  process_update Latin1.tables AwaitingName (Command (lit "start"))
  <> (AwaitingName, [welcome]).
Proof. vm_compute. discriminate. Qed.

(** Re-entry is what [allow_reentry] switches on. *)
Example start_while_awaiting_with_reentry (U : CaseTables) :
  let ch :=
    {| entry_points := entry_points (conv_handler U);
       states := states (conv_handler U);
       fallbacks := fallbacks (conv_handler U);
       allow_reentry := true |} in
  run (dispatch [Conversation ch] AwaitingName (Command (lit "start")))
  = (AwaitingName, [welcome]).
Proof. reflexivity. Qed.

(** C7, as amended.  In [Idle] the cancel command is not handled: without a
    conversation only the entry points are searched, and [cancel] is a
    fallback; no message is sent and the session stays [Idle]. *)
Theorem cancel_while_idle_ignored (U : CaseTables) :
  process_update U Idle (Command (lit "cancel")) = (Idle, []).
Proof. reflexivity. Qed.

(** C7 as stated fails: no cancellation acknowledgment is sent. *)
Lemma cancel_while_idle_counterexample :
  process_update Latin1.tables Idle (Command (lit "cancel"))
  <> (Idle, [cancellation]).
Proof. vm_compute. discriminate. Qed.

(** ** Start-up (C8) *)

(** C8.  When the token is absent from the environment, the module body
    stops with the [ValueError] after configuring logging and nothing else:
    no listener has started, and neither the Flask application nor the bot
    thread, the bot application or its handlers exist. *)
Theorem missing_token_fails_fast
  (getenv : str -> option str) (is_main : bool) :
  getenv Startup.TOKEN_VAR = None ->
  Startup.run (Startup.module_body getenv is_main)
  = (inl (Startup.ValueError Startup.missing_token_message),
     [Startup.LoggingConfigured])
  /\ forall ev,
       In ev (snd (Startup.run (Startup.module_body getenv is_main))) ->
       Startup.is_listener ev = false /\ Startup.is_startup_state ev = false.
Proof.
  intros Habsent.
  assert (E : Startup.run (Startup.module_body getenv is_main)
              = (inl (Startup.ValueError Startup.missing_token_message),
                 [Startup.LoggingConfigured])).
  { unfold Startup.run, Startup.module_body, Startup.bind. cbn [Startup.emit app].
    rewrite Habsent. reflexivity. }
  split; [exact E|].
  rewrite E. cbn [snd In]. intros ev [<-|[]]. split; reflexivity.
Qed.

Lemma missing_token_fails_fast_witness :
  Startup.run (Startup.module_body (fun _ => None) true)
  = (inl (Startup.ValueError Startup.missing_token_message),
     [Startup.LoggingConfigured]).
Proof.
  refine (proj1 (missing_token_fails_fast (fun _ => None) true _)).
  reflexivity.
Defined.

(** An empty token is refused in the same way. *)
Example empty_token_fails_fast (is_main : bool) :
  Startup.run (Startup.module_body (fun _ => Some []) is_main)
  = (inl (Startup.ValueError Startup.missing_token_message),
     [Startup.LoggingConfigured]).
Proof. reflexivity. Qed.

(** * Further properties of the engine *)

Lemma emoji_name_cons (c d : codepoint) (rest : str) :
  emoji_name (c :: d :: rest) = c :: SPARKLES :: SP :: emoji_name (d :: rest).
Proof. reflexivity. Qed.

Lemma spaced_length_cons (rest : str) (c : codepoint) :
  length (spaced (c :: rest)) = 2 * length rest + 1.
Proof.
  revert c. induction rest as [|d rest IH]; intros c; [reflexivity|].
  rewrite spaced_cons. cbn [length]. rewrite IH. lia.
Qed.

Lemma emoji_name_length_cons (rest : str) (c : codepoint) :
  length (emoji_name (c :: rest)) = 3 * length rest + 2.
Proof.
  revert c. induction rest as [|d rest IH]; intros c; [reflexivity|].
  rewrite emoji_name_cons. cbn [length]. rewrite IH. lia.
Qed.

Lemma every_other_cons (a : codepoint) (s : str) :
  every_other (a :: s) = a :: every_other (tl s).
Proof. destruct s; reflexivity. Qed.

Lemma every_third_cons (a : codepoint) (s : str) :
  every_third (a :: s) = a :: every_third (tl (tl s)).
Proof. destruct s as [|x [|y s]]; reflexivity. Qed.

Lemma spaced_even_positions (rest : str) (c : codepoint) :
  every_other (spaced (c :: rest)) = c :: rest.
Proof.
  revert c. induction rest as [|d rest IH]; intros c; [reflexivity|].
  rewrite spaced_cons, every_other_cons. cbn [tl]. now rewrite IH.
Qed.

Lemma spaced_odd_positions (rest : str) (c : codepoint) :
  every_other (tl (spaced (c :: rest))) = repeat SP (length rest).
Proof.
  revert c. induction rest as [|d rest IH]; intros c; [reflexivity|].
  rewrite spaced_cons. cbn [tl]. rewrite every_other_cons, IH. reflexivity.
Qed.

(** X1.  In the Spaced Out text of any name, spaces in the name or not, the
    characters at the even positions are the name and those at the odd
    positions are the separating spaces, one fewer than the characters. *)
Theorem spaced_interleaves (name : str) :
  every_other (spaced name) = name
  /\ every_other (tl (spaced name)) = repeat SP (length name - 1)
  /\ length (spaced name) = 2 * length name - 1.
Proof.
  destruct name as [|c rest]; [repeat split|].
  rewrite spaced_even_positions, spaced_odd_positions, spaced_length_cons.
  cbn [length]. repeat split; [f_equal|]; lia.
Qed.

Lemma emoji_name_positions (rest : str) (c : codepoint) :
  every_third (emoji_name (c :: rest)) = c :: rest
  /\ every_third (tl (emoji_name (c :: rest)))
     = repeat SPARKLES (S (length rest))
  /\ every_third (tl (tl (emoji_name (c :: rest)))) = repeat SP (length rest).
Proof.
  revert c. induction rest as [|d rest IH]; intros c; [repeat split|].
  destruct (IH d) as [H0 [H1 H2]].
  rewrite emoji_name_cons. cbn [tl].
  rewrite !every_third_cons. cbn [tl]. rewrite H0, H1, H2.
  repeat split.
Qed.

(** X2.  In the With Emojis text every character of the name is followed by
    the sparkles, and a single space separates the pairs: the characters at
    positions 0, 3, 6, ... are the name, those at 1, 4, 7, ... are sparkles,
    one per character, and those at 2, 5, 8, ... are spaces. *)
Theorem emoji_name_interleaves (name : str) :
  every_third (emoji_name name) = name
  /\ every_third (tl (emoji_name name)) = repeat SPARKLES (length name)
  /\ every_third (tl (tl (emoji_name name))) = repeat SP (length name - 1)
  /\ length (emoji_name name) = 3 * length name - 1.
Proof.
  destruct name as [|c rest]; [repeat split|].
  destruct (emoji_name_positions rest c) as [H0 [H1 H2]].
  rewrite H0, H1, H2, emoji_name_length_cons.
  cbn [length]. repeat split; [f_equal|]; lia.
Qed.

(** The case the alternating text gives to position [i]. *)
Lemma alternating_shift (U : CaseTables) (s : str) (i : nat) :
  map (fun '(i, char) =>
         if Nat.eqb (i mod 2) 0 then str_upper U [char]
         else str_lower U [char])
    (enumerate_from (S (S i)) s)
  = map (fun '(i, char) =>
           if Nat.eqb (i mod 2) 0 then str_upper U [char]
           else str_lower U [char])
      (enumerate_from i s).
Proof.
  revert i. induction s as [|c s IH]; intros i; [reflexivity|].
  cbn [enumerate_from map]. rewrite IH. f_equal.
  replace (S (S i)) with (i + 1 * 2) by lia.
  now rewrite Nat.Div0.mod_add.
Qed.

Lemma alternating_shift_even (U : CaseTables) (s : str) (k : nat) :
  map (fun '(i, char) =>
         if Nat.eqb (i mod 2) 0 then str_upper U [char]
         else str_lower U [char])
    (enumerate_from (2 * k) s)
  = map (fun '(i, char) =>
           if Nat.eqb (i mod 2) 0 then str_upper U [char]
           else str_lower U [char])
      (enumerate_from 0 s).
Proof.
  induction k as [|k IH]; [reflexivity|].
  replace (2 * S k) with (S (S (2 * k))) by lia.
  now rewrite alternating_shift.
Qed.

Lemma enumerate_from_app (p q : str) (i : nat) :
  enumerate_from i (p ++ q)
  = enumerate_from i p ++ enumerate_from (i + length p) q.
Proof.
  revert i. induction p as [|c p IH]; intros i; cbn [app enumerate_from length].
  - now rewrite Nat.add_0_r.
  - rewrite IH. do 3 f_equal. lia.
Qed.

(** X3.  The alternating text is made position by position: after a prefix
    of even length the rest of the name is written as it would be on its
    own, so the alternating text of the whole is the two alternating texts
    put together. *)
Theorem alternating_after_even_prefix (U : CaseTables) (p q : str) :
  Nat.even (length p) = true ->
  alternating U (p ++ q) = alternating U p ++ alternating U q.
Proof.
  intros Heven. apply Nat.even_spec in Heven as [k Hk].
  unfold alternating, enumerate. rewrite !str_join_empty_sep.
  rewrite enumerate_from_app, map_app, concat_app. cbn [Nat.add].
  now rewrite Hk, alternating_shift_even.
Qed.

Lemma alternating_after_even_prefix_witness :
  alternating Latin1.tables (lit "anna" ++ lit "bell")
  = alternating Latin1.tables (lit "anna")
    ++ alternating Latin1.tables (lit "bell").
Proof.
  apply alternating_after_even_prefix. reflexivity.
Defined.

(** After a prefix of odd length the cases of the rest are swapped. *)
Example alternating_after_odd_prefix :
  alternating Latin1.tables (lit "ann" ++ lit "bell") = lit "AnNbElL"
  /\ alternating Latin1.tables (lit "bell") = lit "BeLl".
Proof. split; reflexivity. Qed.

(** ** The size of the text *)

Lemma lower_ucs4_length (U : CaseTables) (before_rev : str) (c : codepoint)
  (after : str) :
  length (lower_ucs4 U before_rev c after) = length (str_lower U [c]).
Proof.
  unfold str_lower. cbn [do_lower]. rewrite app_nil_r.
  unfold lower_ucs4. now destruct (N.eqb c 0x3A3).
Qed.

Lemma str_upper_length (U : CaseTables) (s : str) :
  Forall (single_forms U) s -> length (str_upper U s) = length s.
Proof.
  induction 1 as [|c s [[Hup _] _] _ IH]; [reflexivity|].
  unfold str_upper in *. cbn [flat_map length] in *.
  rewrite app_nil_r in Hup. now rewrite length_app, Hup, IH.
Qed.

Lemma do_lower_length (U : CaseTables) (s before_rev : str) :
  Forall (single_forms U) s -> length (do_lower U before_rev s) = length s.
Proof.
  intros Hall. revert before_rev.
  induction Hall as [|c s [[_ Hlow] _] _ IH]; intros before_rev;
    [reflexivity|].
  cbn [do_lower length].
  now rewrite length_app, lower_ucs4_length, Hlow, IH.
Qed.

Lemma do_title_length (U : CaseTables) (s before_rev : str) (prev : bool) :
  Forall (single_forms U) s ->
  length (do_title U prev before_rev s) = length s.
Proof.
  intros Hall. revert before_rev prev.
  induction Hall as [|c s [[_ Hlow] Htitle] _ IH]; intros before_rev prev;
    [reflexivity|].
  cbn [do_title length]. rewrite length_app, IH.
  destruct prev; [rewrite lower_ucs4_length, Hlow | rewrite Htitle];
    reflexivity.
Qed.

(** X4.  For a name that is not empty and whose characters all have
    one-character case forms, the text of the engine is eleven characters
    per character of the name, and 110 more for the labels and the line
    feeds. *)
Theorem create_name_styles_length (U : CaseTables) (name : str) :
  name <> [] ->
  Forall (single_forms U) name ->
  length (create_name_styles U name) = 11 * length name + 110.
Proof.
  intros Hne Hall.
  assert (Halt : length (alternating U name) = length name).
  { unfold alternating, enumerate. rewrite str_join_empty_sep.
    apply alternating_length_from.
    eapply Forall_impl; [|exact Hall]. now intros c [H _]. }
  assert (Hsp : length (spaced name) = 2 * length name - 1)
    by (destruct name; [contradiction|];
        rewrite spaced_length_cons; cbn [length]; lia).
  assert (Hem : length (emoji_name name) = 3 * length name - 1)
    by (destruct name; [contradiction|];
        rewrite emoji_name_length_cons; cbn [length]; lia).
  assert (Hpos : 0 < length name) by (destruct name; [contradiction|cbn; lia]).
  unfold create_name_styles, styles_of, append. cbn [app str_join].
  repeat first [rewrite length_app | progress cbn [length]].
  rewrite str_upper_length by assumption.
  unfold str_lower, str_title.
  rewrite do_lower_length, do_title_length by assumption.
  rewrite Halt, length_rev, Hsp, Hem.
  change (length lbl_normal) with 10. change (length lbl_upper) with 13.
  change (length lbl_lower) with 13. change (length lbl_title) with 14.
  change (length lbl_alternating) with 15.
  change (length lbl_reverse) with 11. change (length lbl_emojis) with 15.
  change (length lbl_spaced) with 14.
  lia.
Qed.

Lemma latin1_ascii_single_forms (c : codepoint) :
  (c < 128)%N -> single_forms Latin1.tables c.
Proof.
  intros Hc. split; [now apply latin1_ascii_single_case_forms|].
  cbn [to_title_full Latin1.tables].
  unfold Latin1.title, Latin1.upper, Latin1.in_range.
  repeat match goal with
         | |- context [if ?b then _ else _] => destruct b eqn:?
         end;
    bools_to_props; try reflexivity; lia.
Qed.

Lemma create_name_styles_length_witness :
  length (create_name_styles Latin1.tables (lit "Ana")) = 11 * 3 + 110.
Proof.
  apply (create_name_styles_length Latin1.tables (lit "Ana")).
  - discriminate.
  - repeat constructor.
Defined.

(** * Further properties of the controller *)

(** ** What [strip] removes *)

Lemma lstrip_split (s : str) :
  exists p, s = p ++ lstrip s /\ blank p = true.
Proof.
  induction s as [|c s [p [E Hp]]]; [now exists []|].
  cbn [lstrip]. destruct (is_space c) eqn:Hc.
  - exists (c :: p). cbn [app blank forallb]. rewrite Hc. split; [|exact Hp].
    now rewrite <- E.
  - now exists [].
Qed.

Lemma blank_rev (s : str) : blank (rev s) = blank s.
Proof.
  unfold blank. induction s as [|c s IH]; [reflexivity|].
  cbn [rev forallb]. rewrite forallb_app, IH. cbn [forallb].
  now rewrite andb_true_r, andb_comm.
Qed.

Lemma rstrip_split (s : str) :
  exists q, s = rstrip s ++ q /\ blank q = true.
Proof.
  unfold rstrip. destruct (lstrip_split (rev s)) as [p [E Hp]].
  exists (rev p). rewrite blank_rev. split; [|exact Hp].
  rewrite <- rev_app_distr, <- E. now rewrite rev_involutive.
Qed.

Lemma lstrip_blank (s : str) : blank s = true -> lstrip s = [].
Proof.
  unfold blank. induction s as [|c s IH]; [reflexivity|].
  cbn [forallb lstrip]. intros H. apply andb_true_iff in H as [-> H]. auto.
Qed.

Lemma str_strip_split (t : str) :
  exists p q, t = p ++ str_strip t ++ q /\ blank p = true /\ blank q = true.
Proof.
  unfold str_strip.
  destruct (lstrip_split t) as [p [Ep Hp]].
  destruct (rstrip_split (lstrip t)) as [q [Eq Hq]].
  exists p, q. repeat split; [|assumption..].
  now rewrite <- Eq.
Qed.

Lemma str_strip_empty_iff (t : str) : str_strip t = [] <-> blank t = true.
Proof.
  split.
  - intros E. destruct (str_strip_split t) as [p [q [Et [Hp Hq]]]].
    rewrite E in Et. cbn [app] in Et. rewrite Et. unfold blank in *.
    now rewrite forallb_app, Hp, Hq.
  - intros H. unfold str_strip. now rewrite (lstrip_blank t H).
Qed.

(** X5.  [strip] takes whitespace off the two ends of the text and nothing
    else: the text is a run of whitespace, the trimmed text, and a run of
    whitespace, and the trimmed text neither opens nor closes with
    whitespace.  What is inside, spaces included, is kept as it is. *)
Theorem str_strip_surrounding_whitespace (t : str) :
  exists p q,
    t = p ++ str_strip t ++ q
    /\ blank p = true /\ blank q = true
    /\ left_trimmed (str_strip t) /\ left_trimmed (rev (str_strip t)).
Proof.
  destruct (str_strip_split t) as [p [q [E [Hp Hq]]]].
  exists p, q. repeat split; try assumption.
  - apply rstrip_left_trimmed, lstrip_left_trimmed.
  - unfold str_strip, rstrip. rewrite rev_involutive.
    apply lstrip_left_trimmed.
Qed.

Lemma get_name_by_blank (U : CaseTables) (t : str) :
  run (get_name U (Text t)) =
  if blank t then (Some GET_NAME, [complaint])
  else (Some END, [styles_reply U (str_strip t); try_again_reply]).
Proof.
  unfold run, get_name. cbn [message_text].
  destruct (blank t) eqn:Hb.
  - apply str_strip_empty_iff in Hb. now rewrite Hb.
  - destruct (str_strip t) as [|c name] eqn:E; [|reflexivity].
    apply str_strip_empty_iff in E. congruence.
Qed.

(** X6.  The name handler has two outcomes, decided by the text alone: when
    every character is whitespace it sends the complaint and asks for
    [GET_NAME] again; otherwise it sends the header and styles of the
    trimmed text, then the prompt with the keyboard, and ends the
    conversation. *)
Theorem get_name_outcomes (U : CaseTables) (t : str) :
  run (get_name U (Text t)) =
  if blank t then (Some GET_NAME, [complaint])
  else (Some END, [styles_reply U (str_strip t); try_again_reply]).
Proof. exact (get_name_by_blank U t). Qed.

(** ** The transitions of a conversation *)

Lemma str_eqb_eq (a b : str) : str_eqb a b = true <-> a = b.
Proof.
  revert b. induction a as [|x a IH]; intros [|y b]; cbn [str_eqb];
    try (split; [discriminate | discriminate]); [tauto|].
  rewrite andb_true_iff, N.eqb_eq, IH. split.
  - now intros [-> ->].
  - intros E. injection E. auto.
Qed.

(** Where a command goes. *)
Lemma process_update_command (U : CaseTables) (state : option Z) (name : str) :
  process_update U state (Command name) =
  match state with
  | None =>
      if str_eqb name (lit "start") then (AwaitingName, [welcome])
      else if str_eqb name (lit "help") then (None, [help_reply])
      else (None, [])
  | Some z =>
      if str_eqb name (lit "cancel") then (Idle, [cancellation])
      else if str_eqb name (lit "help") then (Some z, [help_reply])
      else (Some z, [])
  end.
Proof.
  unfold process_update, run, handlers. cbn [dispatch].
  unfold conv_check_update, conv_handler.
  cbn [allow_reentry states entry_points fallbacks].
  destruct state as [z|].
  - assert (E : first_match
                  (states_get
                     [(GET_NAME,
                       [MessageHandler
                          (fun u => filters_TEXT u && negb (filters_COMMAND u))
                          (get_name U)])] z) (Command name) = None).
    { unfold states_get. cbn [find fst snd].
      destruct (Z.eqb GET_NAME z); reflexivity. }
    rewrite E. unfold first_match. cbn [find check_update CommandHandler].
    destruct (str_eqb name (lit "cancel")); [reflexivity|].
    destruct (str_eqb name (lit "help")); reflexivity.
  - unfold first_match. cbn [find check_update CommandHandler].
    destruct (str_eqb name (lit "start")); [reflexivity|].
    destruct (str_eqb name (lit "help")); reflexivity.
Qed.

(** Where a text goes. *)
Lemma process_update_text (U : CaseTables) (state : option Z) (t : str) :
  process_update U state (Text t) =
  match state with
  | None => (None, [])
  | Some z =>
      if Z.eqb GET_NAME z && negb (py_not t) then
        if blank t then (AwaitingName, [complaint])
        else (Idle, [styles_reply U (str_strip t); try_again_reply])
      else (Some z, [])
  end.
Proof.
  destruct state as [z|]; [|reflexivity].
  unfold process_update, run, handlers. cbn [dispatch].
  unfold conv_check_update, conv_handler.
  cbn [allow_reentry states entry_points fallbacks].
  unfold states_get, first_match. cbn [find fst].
  destruct (Z.eqb GET_NAME z); [|reflexivity].
  destruct t as [|c t]; [reflexivity|].
  cbn [snd find check_update MessageHandler filters_TEXT filters_COMMAND
       message_text py_not negb andb callback].
  pose proof (get_name_by_blank U (c :: t)) as H. unfold run in H.
  unfold bind. rewrite H. now destruct (blank (c :: t)).
Qed.

Lemma command_inj (a b : str) : Command a = Command b -> a = b.
Proof. intros E. now injection E. Qed.

(** X7.  While the session is [Idle] the bot answers two updates only, the
    commands [start] and [help]; [start] alone opens a conversation.  Every
    other command and every text gets no answer and leaves the session
    [Idle]. *)
Theorem idle_answers_start_and_help_only (U : CaseTables) (u : update) :
  (snd (process_update U Idle u) <> [] <->
   u = Command (lit "start") \/ u = Command (lit "help"))
  /\ (fst (process_update U Idle u) = AwaitingName <->
      u = Command (lit "start"))
  /\ (fst (process_update U Idle u) = Idle
      \/ fst (process_update U Idle u) = AwaitingName).
Proof.
  unfold Idle. destruct u as [name|t].
  - rewrite process_update_command.
    destruct (str_eqb name (lit "start")) eqn:Es.
    + apply str_eqb_eq in Es. subst name. cbn [fst snd].
      split; [|split].
      * split; [intros _; now left | intros _; discriminate].
      * split; reflexivity.
      * now right.
    + assert (Hs : Command name <> Command (lit "start")).
      { intros E. apply command_inj, str_eqb_eq in E. congruence. }
      destruct (str_eqb name (lit "help")) eqn:Eh.
      * apply str_eqb_eq in Eh. subst name. cbn [fst snd].
        split; [|split].
        -- split; [intros _; now right | intros _; discriminate].
        -- split; [discriminate | intros E; contradiction].
        -- now left.
      * assert (Hh : Command name <> Command (lit "help")).
        { intros E. apply command_inj, str_eqb_eq in E. congruence. }
        cbn [fst snd]. split; [|split].
        -- split; [intros H; now contradiction H | intros [E|E]; contradiction].
        -- split; [discriminate | intros E; contradiction].
        -- now left.
  - rewrite process_update_text. cbn [fst snd].
    split; [|split].
    + split; [intros H; now contradiction H | intros [E|E]; discriminate E].
    + split; [discriminate | intros E; discriminate E].
    + now left.
Qed.

(** X8.  The session leaves [AwaitingName] on exactly two kinds of update:
    the command [cancel], and a text with a character that is not
    whitespace.  On every other update it stays in [AwaitingName]. *)
Theorem awaiting_left_by_cancel_or_name (U : CaseTables) (u : update) :
  (fst (process_update U AwaitingName u) = Idle <->
   u = Command (lit "cancel") \/ exists t, u = Text t /\ blank t = false)
  /\ (fst (process_update U AwaitingName u) = Idle
      \/ fst (process_update U AwaitingName u) = AwaitingName).
Proof.
  unfold AwaitingName. destruct u as [name|t].
  - rewrite process_update_command.
    destruct (str_eqb name (lit "cancel")) eqn:Ec.
    + apply str_eqb_eq in Ec. subst name. cbn [fst].
      split; [|now left]. split; [intros _; now left | reflexivity].
    + assert (Hc : Command name <> Command (lit "cancel")).
      { intros E. apply command_inj, str_eqb_eq in E. congruence. }
      assert (R : fst (if str_eqb name (lit "help")
                       then (Some GET_NAME, [help_reply])
                       else (Some GET_NAME, [])) = Some GET_NAME)
        by now destruct (str_eqb name (lit "help")).
      rewrite R. split; [|now right]. split; [discriminate|].
      intros [E|[t [E _]]]; [contradiction | discriminate E].
  - rewrite process_update_text. change (Z.eqb GET_NAME GET_NAME) with true.
    destruct t as [|c t]; cbn [py_not negb andb fst].
    + split; [|now right]. split; [discriminate|].
      intros [E|[t [E Hb]]]; [discriminate E|].
      injection E as <-. discriminate Hb.
    + destruct (blank (c :: t)) eqn:Hb; cbn [fst].
      * split; [|now right]. split; [discriminate|].
        intros [E|[t' [E Hb']]]; [discriminate E|].
        injection E as <-. congruence.
      * split; [|now left]. split; [|reflexivity].
        intros _. right. now exists (c :: t).
Qed.

(** X9.  The command [help] is answered with the help text in every state,
    and the state is left as it is. *)
Theorem help_answered_in_every_state (U : CaseTables) (state : option Z) :
  process_update U state (Command (lit "help")) = (state, [help_reply]).
Proof.
  rewrite process_update_command. now destruct state.
Qed.

Lemma step_keeps_session (U : CaseTables) (state : option Z) (u : update) :
  state = Idle \/ state = AwaitingName ->
  fst (process_update U state u) = Idle
  \/ fst (process_update U state u) = AwaitingName.
Proof.
  unfold Idle, AwaitingName. intros [-> | ->]; destruct u as [name|t].
  - rewrite process_update_command.
    destruct (str_eqb name (lit "start")); [now right|].
    destruct (str_eqb name (lit "help")); now left.
  - rewrite process_update_text. now left.
  - rewrite process_update_command.
    destruct (str_eqb name (lit "cancel")); [now left|].
    destruct (str_eqb name (lit "help")); now right.
  - rewrite process_update_text.
    destruct (Z.eqb GET_NAME GET_NAME && negb (py_not t)); [|now right].
    destruct (blank t); [now right | now left].
Qed.

(** X10.  A session that is [Idle] or in [AwaitingName] is in one of these
    two states again after any sequence of updates: no update installs
    another state. *)
Theorem session_has_two_states (U : CaseTables) (us : list update)
  (state : option Z) :
  state = Idle \/ state = AwaitingName ->
  fst (process_updates U state us) = Idle
  \/ fst (process_updates U state us) = AwaitingName.
Proof.
  revert state. induction us as [|u us IH]; intros state Hs; [exact Hs|].
  cbn [process_updates].
  pose proof (step_keeps_session U state u Hs) as H1.
  destruct (process_update U state u) as [state' msgs]. cbn [fst] in H1.
  specialize (IH state' H1).
  now destruct (process_updates U state' us) as [state'' msgs'].
Qed.

Lemma session_has_two_states_witness :
  fst (process_updates Latin1.tables Idle
         [Command (lit "start"); Text (lit " "); Text (lit "Ana");
          Command (lit "cancel")]) = Idle
  \/ fst (process_updates Latin1.tables Idle
            [Command (lit "start"); Text (lit " "); Text (lit "Ana");
             Command (lit "cancel")]) = AwaitingName.
Proof.
  apply session_has_two_states. left. reflexivity.
Defined.

(** ** What the bot sends *)

Lemma replies_have_text (U : CaseTables) (name : str) :
  Forall (fun m => sent_text m <> [])
    [welcome; help_reply; cancellation; complaint; styles_reply U name;
     try_again_reply].
Proof. repeat constructor; discriminate. Qed.

(** The messages of one step are among the six replies. *)
Lemma step_messages (U : CaseTables) (state : option Z) (u : update) :
  incl (snd (process_update U state u))
    [welcome; help_reply; cancellation; complaint;
     styles_reply U (str_strip (message_text u)); try_again_reply].
Proof.
  destruct u as [name|t].
  - rewrite process_update_command.
    destruct state;
      repeat match goal with
             | |- context [if ?b then _ else _] => destruct b
             end;
      cbn [snd]; intros m Hm; cbn [In] in *; tauto.
  - rewrite process_update_text. cbn [message_text].
    destruct state;
      repeat match goal with
             | |- context [if ?b then _ else _] => destruct b
             end;
      cbn [snd]; intros m Hm; cbn [In] in *; tauto.
Qed.

(** X11.  Whatever the state and the update, every message the bot sends
    has a text that is not empty. *)
Theorem no_empty_message (U : CaseTables) (state : option Z) (u : update) :
  Forall (fun m => sent_text m <> []) (snd (process_update U state u)).
Proof.
  apply Forall_forall. intros m Hm.
  apply (step_messages U state u) in Hm.
  pose proof (replies_have_text U (str_strip (message_text u))) as H.
  rewrite Forall_forall in H. now apply H.
Qed.

(** X12.  Every button of a keyboard the bot sends is a command that gets
    an answer in the state the session is in once the message is sent. *)
Theorem keyboard_buttons_are_answered (U : CaseTables) (state : option Z)
  (u : update) :
  Forall
    (fun m =>
       Forall
         (fun b =>
            snd (process_update U (fst (process_update U state u))
                   (button_update b)) <> [])
         (buttons m))
    (snd (process_update U state u)).
Proof.
  destruct u as [name|t].
  - rewrite process_update_command.
    destruct state;
      repeat match goal with
             | |- context [if ?b then _ else _] => destruct b
             end;
      cbn [fst snd]; repeat constructor; discriminate.
  - rewrite process_update_text.
    destruct state;
      repeat match goal with
             | |- context [if ?b then _ else _] => destruct b
             end;
      cbn [fst snd]; repeat constructor; discriminate.
Qed.

(** ** Conversations *)

Lemma blank_false_not_empty (t : str) : blank t = false -> py_not t = false.
Proof. now destruct t. Qed.

(** X13.  A whole round: from [Idle], the command [start], then a text with
    a character that is not whitespace, then [start] again.  The bot sends
    the welcome, the styles of the trimmed text, the prompt, and the welcome
    once more, and the session is in [AwaitingName] for the next name. *)
Theorem round_and_restart (U : CaseTables) (t : str) :
  blank t = false ->
  process_updates U Idle [Command (lit "start"); Text t; Command (lit "start")]
  = (AwaitingName,
     [welcome; styles_reply U (str_strip t); try_again_reply; welcome]).
Proof.
  intros Hb. cbn [process_updates].
  rewrite (process_update_command U Idle). cbn [Idle str_eqb].
  change (str_eqb (lit "start") (lit "start")) with true. cbv iota.
  rewrite (process_update_text U AwaitingName). unfold AwaitingName at 1.
  change (Z.eqb GET_NAME GET_NAME) with true.
  rewrite Hb, (blank_false_not_empty t Hb). cbn [negb andb].
  rewrite (process_update_command U Idle). reflexivity.
Qed.

Lemma round_and_restart_witness :
  process_updates Latin1.tables Idle
    [Command (lit "start"); Text (lit " Ana "); Command (lit "start")]
  = (AwaitingName,
     [welcome; styles_reply Latin1.tables (lit "Ana"); try_again_reply;
      welcome]).
Proof.
  apply (round_and_restart Latin1.tables (lit " Ana ")). reflexivity.
Defined.

(** X14.  Blank names can be sent any number of times: each text message
    made of whitespace only is answered with one complaint and the session
    stays in [AwaitingName]. *)
Theorem blank_names_loop (U : CaseTables) (ts : list str) :
  Forall (fun t => t <> [] /\ blank t = true) ts ->
  process_updates U AwaitingName (map Text ts)
  = (AwaitingName, repeat complaint (length ts)).
Proof.
  induction 1 as [|t ts [Hne Hb] _ IH]; [reflexivity|].
  cbn [map process_updates length repeat].
  rewrite (process_update_text U AwaitingName). unfold AwaitingName at 1.
  change (Z.eqb GET_NAME GET_NAME) with true.
  destruct t as [|c t]; [contradiction|].
  cbn [py_not negb andb]. rewrite Hb, IH. reflexivity.
Qed.

Lemma blank_names_loop_witness :
  process_updates Latin1.tables AwaitingName
    (map Text [lit " "; lit "   "; [0x09; 0xA0]%N])
  = (AwaitingName, repeat complaint 3).
Proof.
  apply (blank_names_loop Latin1.tables [lit " "; lit "   "; [0x09; 0xA0]%N]).
  repeat constructor; discriminate.
Defined.

(** ** The lines of the reply *)

Lemma in_str_strip (x : codepoint) (t : str) : In x (str_strip t) -> In x t.
Proof.
  intros H. destruct (str_strip_split t) as [p [q [E _]]].
  rewrite E, !in_app_iff. tauto.
Qed.

(** X15.  For a one-line text with a character that is not whitespace, over
    case tables that keep a line a line, the first message of the name
    handler has ten lines: the header with the trimmed text in it, an empty
    line, and the eight labelled lines of the engine; the second message is
    the prompt. *)
Theorem get_name_reply_lines (U : CaseTables) (t : str) :
  line_safe U ->
  ~ In LF t ->
  blank t = false ->
  exists reply,
    run (get_name U (Text t)) = (Some END, [reply; try_again_reply])
    /\ str_split_lf (sent_text reply) =
         (SPARKLES :: lit " Here's your name in different styles, "
            ++ str_strip t ++ lit "!")
         :: []
         :: [lbl_normal ++ str_strip t;
             lbl_upper ++ str_upper U (str_strip t);
             lbl_lower ++ str_lower U (str_strip t);
             lbl_title ++ str_title U (str_strip t);
             lbl_alternating ++ alternating U (str_strip t);
             lbl_reverse ++ rev (str_strip t);
             lbl_emojis ++ emoji_name (str_strip t);
             lbl_spaced ++ spaced (str_strip t)].
Proof.
  intros safe Hline Hb.
  assert (Hname : ~ In LF (str_strip t))
    by (intros H; apply Hline; revert H; apply in_str_strip).
  exists (styles_reply U (str_strip t)). split.
  - rewrite get_name_by_blank. now rewrite Hb.
  - cbn [sent_text styles_reply]. unfold response_header.
    set (header := lit " Here's your name in different styles, ").
    replace ((SPARKLES :: header ++ str_strip t ++ lit "!" ++ [LF; LF])
             ++ create_name_styles U (str_strip t))
      with ((SPARKLES :: header ++ str_strip t ++ lit "!")
            ++ LF :: [] ++ LF :: create_name_styles U (str_strip t)).
    + rewrite !split_lf_app, (one_line_name_lines U _ safe Hname).
      rewrite split_lf_whole; [reflexivity|].
      cbn [In]. rewrite !in_app_iff. intros [H|[H|[H|H]]].
      * discriminate H.
      * revert H. subst header. absent_in_literal.
      * contradiction.
      * revert H. absent_in_literal.
    + cbn [app]. f_equal. rewrite <- !app_assoc. reflexivity.
Qed.

Lemma get_name_reply_lines_witness :
  exists reply,
    run (get_name Latin1.tables (Text (lit " Ana ")))
      = (Some END, [reply; try_again_reply])
    /\ length (str_split_lf (sent_text reply)) = 10.
Proof.
  destruct (get_name_reply_lines Latin1.tables (lit " Ana ") latin1_line_safe)
    as [reply [Hrun Hlines]].
  - absent_in_literal.
  - reflexivity.
  - exists reply. split; [exact Hrun|]. rewrite Hlines. reflexivity.
Defined.

(** * Further properties of start-up *)

(** The outcome and the log of the main thread, by the token and the way the
    file runs. *)
Lemma startup_by_cases (getenv : str -> option str) (is_main : bool) :
  Startup.run (Startup.module_body getenv is_main) =
  match getenv Startup.TOKEN_VAR with
  | None | Some [] =>
      (inl (Startup.ValueError Startup.missing_token_message),
       [Startup.LoggingConfigured])
  | Some (c :: token) =>
      if is_main then
        (inr tt,
         [Startup.LoggingConfigured; Startup.FlaskCreated;
          Startup.ThreadStarted; Startup.HttpStarted])
      else (inr tt, [Startup.LoggingConfigured; Startup.FlaskCreated])
  end.
Proof.
  unfold Startup.run, Startup.module_body, Startup.bind.
  cbn [Startup.emit app].
  destruct (getenv Startup.TOKEN_VAR) as [[|c token]|]; [reflexivity| |reflexivity].
  now destruct is_main.
Qed.

Ltac startup_cases :=
  repeat match goal with
         | |- _ /\ _ => split
         | |- _ <-> _ => split
         | |- _ -> _ => intro
         | |- ~ _ => intro
         | H : _ /\ _ |- _ => destruct H
         | H : exists _, _ |- _ => destruct H
         | H : _ \/ _ |- _ => destruct H
         | H : False |- _ => destruct H
         | H : Some _ = Some _ |- _ => injection H as H; subst
         end;
  try discriminate; try contradiction; try congruence;
  try reflexivity;
  try (left; reflexivity); try (right; reflexivity);
  try (eexists; split; [reflexivity | discriminate]);
  auto 10.

(** X16.  The main thread stops with an exception exactly when the token
    variable is unset or set to the empty string, and the exception is then
    the [ValueError]; with any other token the module body raises nothing,
    imported or run as the main program. *)
Theorem startup_fails_iff_no_token
  (getenv : str -> option str) (is_main : bool) :
  (fst (Startup.run (Startup.module_body getenv is_main))
   = inl (Startup.ValueError Startup.missing_token_message)
   <-> getenv Startup.TOKEN_VAR = None \/ getenv Startup.TOKEN_VAR = Some [])
  /\ (fst (Startup.run (Startup.module_body getenv is_main)) = inr tt
      <-> exists token,
            getenv Startup.TOKEN_VAR = Some token /\ token <> []).
Proof.
  rewrite startup_by_cases.
  destruct (getenv Startup.TOKEN_VAR) as [[|c token]|];
    [| destruct is_main |]; cbn [fst]; startup_cases.
Qed.

(** X17.  The main thread starts the bot thread and the HTTP loop in the
    same runs, those of the file as the main program with a token that is
    not empty; when the module is only imported, or the token is missing,
    it starts neither.  The main thread itself never polls. *)
Theorem http_and_bot_thread_iff_main_with_token
  (getenv : str -> option str) (is_main : bool) :
  (In Startup.HttpStarted
     (snd (Startup.run (Startup.module_body getenv is_main)))
   <-> is_main = true
       /\ exists token, getenv Startup.TOKEN_VAR = Some token /\ token <> [])
  /\ (In Startup.ThreadStarted
        (snd (Startup.run (Startup.module_body getenv is_main)))
      <-> In Startup.HttpStarted
            (snd (Startup.run (Startup.module_body getenv is_main))))
  /\ ~ In Startup.PollingStarted
        (snd (Startup.run (Startup.module_body getenv is_main))).
Proof.
  rewrite startup_by_cases.
  destruct (getenv Startup.TOKEN_VAR) as [[|c token]|];
    [| destruct is_main |]; cbn [snd In]; startup_cases.
Qed.
